(** * CommandPalette: a shallow embedding of
      web/src/components/CommandPalette.tsx

    The component keeps two local flags ([open], [hasFetchedMemos]), reads two
    observable stores ([memoStore.state.memos], [userStore.state.tagCount]) and
    talks to three collaborators: the router ([navigate]), the memo store
    ([fetchMemos]) and the filter store ([addFilter]).  Handlers are modelled
    as functions from the current world to the next world together with the
    list of collaborator calls they made, in program order. *)

From Stdlib Require Import Bool List Arith NArith ZArith Lia Ascii String.
From Stdlib Require Import Sorted Permutation.
Import ListNotations.

Set Implicit Arguments.

(* ------------------------------------------------------------------ *)
(** ** JavaScript string and array primitives used by the component   *)
(* ------------------------------------------------------------------ *)

(** A JavaScript string is a finite sequence of UTF-16 code units, and
    every string operation of the component ([===], [split], [slice], the
    default order of [sort], [length]) works on code units.  A code unit is
    a number below 65536; no statement below depends on that bound. *)
Definition code_unit : Type := N.

Definition jsstring : Type := list code_unit.

(** The code unit of an ASCII character. *)
Definition unit_of (c : ascii) : code_unit := N_of_ascii c.

(** The string of a literal of the source written in ASCII: one code unit
    per character. *)
Definition lit (s : string) : jsstring :=
  map unit_of (list_ascii_of_string s).

(** The code unit of "/". *)
Definition slash : code_unit := unit_of "/".

(** The code unit of the horizontal ellipsis, U+2026. *)
Definition ellipsis : code_unit := 8230%N.

(** [a === b] on strings: the same code units in the same order. *)
Fixpoint str_eqb (a b : jsstring) : bool :=
  match a, b with
  | [], [] => true
  | x :: a', y :: b' => N.eqb x y && str_eqb a' b'
  | _, _ => false
  end.

(** [s.split(sep)] for a one-unit separator: the pieces between the
    occurrences of [sep], always at least one piece. *)
Fixpoint split (sep : code_unit) (s : jsstring) : list jsstring :=
  match s with
  | [] => [[]]
  | c :: rest =>
      if N.eqb c sep then [] :: split sep rest
      else match split sep rest with
           | [] => [[c]]
           | piece :: pieces => (c :: piece) :: pieces
           end
  end.

(** The value returned by [arr.pop()]: the last element, [undefined] (here
    [None]) on an empty array. *)
Fixpoint pop (arr : list jsstring) : option jsstring :=
  match arr with
  | [] => None
  | [x] => Some x
  | _ :: tl => pop tl
  end.

(** Truthiness of a string: every string but the empty one ([undefined] is
    falsy as well, see [handleMemoSelect]). *)
Definition truthy (s : jsstring) : bool :=
  match s with
  | [] => false
  | _ :: _ => true
  end.

(** [a || b] on strings. *)
Definition or_else (a b : jsstring) : jsstring :=
  if truthy a then a else b.

(** Relative index of [String.prototype.slice]: negative indices count from
    the end, everything is clamped to [0 .. len]. *)
Definition clamp_index (len i : Z) : Z :=
  if (i <? 0)%Z then Z.max (len + i) 0 else Z.min i len.

(** [s.slice(start, end)]: the code units from index [start] up to, not
    including, index [end]. *)
Definition slice (s : jsstring) (start end_ : Z) : jsstring :=
  let len := Z.of_nat (List.length s) in
  let from := clamp_index len start in
  let to := clamp_index len end_ in
  let span := Z.max (to - from) 0 in
  firstn (Z.to_nat span) (skipn (Z.to_nat from) s).

(** [IsLessThan] on strings: lexicographic comparison of code units, a proper
    prefix being smaller.  This is the order used by [Array.prototype.sort]
    when no comparator is given. *)
Fixpoint str_lt (a b : jsstring) : bool :=
  match a, b with
  | _, [] => false
  | [], _ :: _ => true
  | x :: a', y :: b' =>
      if (x <? y)%N then true
      else if (y <? x)%N then false
      else str_lt a' b'
  end.

(** Insertion of one key into an already ordered array, after the keys that
    compare equal to it. *)
Fixpoint insert_sorted (x : jsstring) (l : list jsstring) : list jsstring :=
  match l with
  | [] => [x]
  | y :: tl => if str_lt x y then x :: y :: tl else y :: insert_sorted x tl
  end.

(** [arr.sort()] with the default comparator. *)
Definition sort (arr : list jsstring) : list jsstring :=
  fold_left (fun acc x => insert_sorted x acc) arr [].

(* ------------------------------------------------------------------ *)
(** ** Data model                                                      *)
(* ------------------------------------------------------------------ *)

(** Modelled from the spec: the row status enumeration of
    "@/types/proto/api/v1/common" is not among the sources; the component
    only names its active value, [State.NORMAL]. *)
Inductive State : Type :=
  | STATE_UNSPECIFIED
  | NORMAL
  | STATE_ARCHIVED.

(** The routing table of "@/router", of which the component reads six
    entries.  Its values are not among the sources, so the table is a
    parameter of everything that mentions it. *)
Record RoutesTable : Type := {
  ROOT : jsstring;
  INBOX : jsstring;
  ATTACHMENTS : jsstring;
  ARCHIVED : jsstring;
  SETTING : jsstring;
  EXPLORE : jsstring
}.

(** The fields of a memo that the component reads. *)
Record Memo : Type := {
  name : jsstring;
  content : jsstring
}.

(** The fields of a keyboard event that [handleKeyDown] reads. *)
Record KeyboardEvent : Type := {
  key : jsstring;
  metaKey : bool;
  ctrlKey : bool
}.

(** Argument of [memoStore.fetchMemos]. *)
Record FetchRequest : Type := {
  parent : jsstring;
  state : State;
  orderBy : jsstring;
  pageSize : Z
}.

(** Argument of [memoFilterStore.addFilter]. *)
Record MemoFilter : Type := {
  factor : jsstring;
  value : jsstring
}.

(** Calls made on the collaborators (and on the keyboard event), and the
    report the runtime makes of a rejected promise that nothing handles (the
    "unhandledrejection" event of the window). *)
Inductive Call : Type :=
  | PreventDefault
  | FetchMemos (request : FetchRequest)
  | Navigate (path : jsstring)
  | AddFilter (filter : MemoFilter)
  | UnhandledRejection (reason : jsstring).

(** The component's two [useState] cells, the snapshots of the two stores it
    observes, and the number of [fetchMemos] promises that were created by the
    component and have not settled yet. *)
Record World : Type := {
  open : bool;
  hasFetchedMemos : bool;
  memos : list Memo;
  tagCount : list (jsstring * nat);
  inflight : nat
}.

(** The world right after the component is mounted: both flags are [false],
    no request was made. *)
Definition mount (ms : list Memo) (tc : list (jsstring * nat)) : World :=
  {| open := false; hasFetchedMemos := false;
     memos := ms; tagCount := tc; inflight := 0 |}.

(* ------------------------------------------------------------------ *)
(** ** Handlers                                                        *)
(* ------------------------------------------------------------------ *)

(** A handler: next world and the calls it made. *)
Definition Handler : Type := World -> World * list Call.

Definition skip : Handler := fun w => (w, []).

Definition andThen (h1 h2 : Handler) : Handler :=
  fun w =>
    let (w1, c1) := h1 w in
    let (w2, c2) := h2 w1 in
    (w2, (c1 ++ c2)%list).

Notation "h1 ;; h2" := (andThen h1 h2) (at level 61, right associativity).

Definition call (c : Call) : Handler := fun w => (w, [c]).

(** [setOpen(f)] with an updater function; [setOpen(b)] is [setOpen (fun _ => b)]. *)
Definition setOpen (f : bool -> bool) : Handler :=
  fun w =>
    ({| open := f (open w); hasFetchedMemos := hasFetchedMemos w;
        memos := memos w; tagCount := tagCount w; inflight := inflight w |}, []).

Definition setHasFetchedMemos (b : bool) : Handler :=
  fun w =>
    ({| open := open w; hasFetchedMemos := b;
        memos := memos w; tagCount := tagCount w; inflight := inflight w |}, []).

(** The request built by the fetch effect. *)
Definition recentRequest : FetchRequest :=
  {| parent := lit ""; state := NORMAL; orderBy := lit "display_time desc";
     pageSize := 20 |}.

(** [memoStore.fetchMemos(request)]: one more promise is pending. *)
Definition fetchMemos (request : FetchRequest) : Handler :=
  fun w =>
    ({| open := open w; hasFetchedMemos := hasFetchedMemos w;
        memos := memos w; tagCount := tagCount w; inflight := S (inflight w) |},
     [FetchMemos request]).

(** Body of the first effect.  The [.finally] callback is registered on the
    promise and runs when it settles (see [settle]); the promise returned by
    [.finally] itself is dropped. *)
Definition fetchEffect : Handler :=
  fun w =>
    if open w && negb (hasFetchedMemos w) then fetchMemos recentRequest w
    else skip w.

(** The dependency array [[open, hasFetchedMemos]]: the effect body runs
    after a render only when one of the two differs from the previous
    render. *)
Definition deps_changed (prev cur : World) : bool :=
  negb (Bool.eqb (open prev) (open cur))
  || negb (Bool.eqb (hasFetchedMemos prev) (hasFetchedMemos cur)).

Definition runEffects (prev : World) : Handler :=
  fun cur => if deps_changed prev cur then fetchEffect cur else skip cur.

Definition handleKeyDown (e : KeyboardEvent) : Handler :=
  if (str_eqb (key e) (lit "k") || str_eqb (key e) (lit "K"))
     && (metaKey e || ctrlKey e)
  then call PreventDefault ;; setOpen negb
  else if str_eqb (key e) (lit "Escape") then setOpen (fun _ => false)
  else skip.

Definition handleNavigate (path : jsstring) : Handler :=
  call (Navigate path) ;; setOpen (fun _ => false).

Definition handleMemoSelect (name : jsstring) : Handler :=
  let uid := pop (split slash name) in
  match uid with
  | Some u => if truthy u then handleNavigate (lit "/memos/" ++ u) else skip
  | None => skip
  end.

Definition handleTagSelect (tag : jsstring) : Handler :=
  call (AddFilter {| factor := lit "tagSearch"; value := tag |})
  ;; setOpen (fun _ => false).

(** What an [onSelect] closure of a rendered item does when it is invoked. *)
Inductive OnSelect : Type :=
  | SelectPath (path : jsstring)
  | SelectMemo (name : jsstring)
  | SelectTag (tag : jsstring).

Definition runSelect (sel : OnSelect) : Handler :=
  match sel with
  | SelectPath path => handleNavigate path
  | SelectMemo name => handleMemoSelect name
  | SelectTag tag => handleTagSelect tag
  end.

(** How a [fetchMemos] promise settles. *)
Inductive Outcome : Type :=
  | Fulfilled (result : list Memo)
  | Rejected (reason : jsstring).

(** Modelled from the spec: [memoStore.fetchMemos] is not among the sources.
    The spec gives "fetch succeeded -> list populated" and "fetch failed or
    pending -> list empty": a fulfilled request stores its result in the
    snapshot, a rejected one leaves the snapshot as it was. *)
Definition storeAfter (o : Outcome) (snapshot : list Memo) : list Memo :=
  match o with
  | Fulfilled result => result
  | Rejected _ => snapshot
  end.

(** The promise returned by [p.finally(callback)] settles as [p] does once
    the callback has run.  The effect attaches nothing to it (there is no
    [.catch]) and drops it, so when [p] is rejected the rejection of this
    second promise is handled by nobody and reaches the runtime. *)
Definition finallyPromise (o : Outcome) : Handler :=
  fun w =>
    match o with
    | Fulfilled _ => (w, [])
    | Rejected reason => (w, [UnhandledRejection reason])
    end.

(** A pending promise settles: the store is updated, then the [.finally]
    callback runs, whatever the outcome, then the promise returned by
    [.finally] settles.  Nothing can settle when no promise is pending. *)
Definition settle (o : Outcome) : Handler :=
  fun w =>
    match inflight w with
    | O => skip w
    | S n =>
        (setHasFetchedMemos true ;; finallyPromise o)
          {| open := open w; hasFetchedMemos := hasFetchedMemos w;
             memos := storeAfter o (memos w); tagCount := tagCount w;
             inflight := n |}
    end.

(** The stores are shared with the rest of the application, which may
    replace their contents at any time; the observer re-renders. *)
Definition storeChanged (ms : list Memo) (tc : list (jsstring * nat)) : Handler :=
  fun w =>
    ({| open := open w; hasFetchedMemos := hasFetchedMemos w;
        memos := ms; tagCount := tc; inflight := inflight w |}, []).

(** Everything that can happen to a mounted palette. *)
Inductive Event : Type :=
  | KeyDown (e : KeyboardEvent)
  | OpenChange (b : bool)
  | Select (sel : OnSelect)
  | Settled (o : Outcome)
  | StoreChanged (ms : list Memo) (tc : list (jsstring * nat)).

Definition handle (ev : Event) : Handler :=
  match ev with
  | KeyDown e => handleKeyDown e
  | OpenChange b => setOpen (fun _ => b)
  | Select sel => runSelect sel
  | Settled o => settle o
  | StoreChanged ms tc => storeChanged ms tc
  end.

(** One event: its handler, the re-render, then the effects whose
    dependencies changed. *)
Definition step (w : World) (ev : Event) : World * list Call :=
  (handle ev ;; runEffects w) w.

Fixpoint run (w : World) (evs : list Event) : World * list Call :=
  match evs with
  | [] => (w, [])
  | ev :: rest =>
      let (w1, c1) := step w ev in
      let (w2, c2) := run w1 rest in
      (w2, (c1 ++ c2)%list)
  end.

(** The requests among a list of calls, in order. *)
Fixpoint fetches (cs : list Call) : list FetchRequest :=
  match cs with
  | [] => []
  | FetchMemos r :: tl => r :: fetches tl
  | _ :: tl => fetches tl
  end.

Fixpoint navigations (cs : list Call) : list jsstring :=
  match cs with
  | [] => []
  | Navigate p :: tl => p :: navigations tl
  | _ :: tl => navigations tl
  end.

Fixpoint filtersAdded (cs : list Call) : list MemoFilter :=
  match cs with
  | [] => []
  | AddFilter f :: tl => f :: filtersAdded tl
  | _ :: tl => filtersAdded tl
  end.

(** The event takes the palette from closed to open. *)
Definition opens (w : World) (ev : Event) : bool :=
  negb (open w) && open (fst (step w ev)).

(** No closed-to-open transition of the trace happens while a request is
    still pending. *)
Fixpoint settled_before_reopen (w : World) (evs : list Event) : bool :=
  match evs with
  | [] => true
  | ev :: rest =>
      (if opens w ev then Nat.eqb (inflight w) 0 else true)
      && settled_before_reopen (fst (step w ev)) rest
  end.

(** The trace cut at its first closed-to-open transition: the events before
    it, the world they lead to, and the opening event. *)
Fixpoint first_opening (w : World) (evs : list Event)
  : option (list Event * World * Event) :=
  match evs with
  | [] => None
  | ev :: rest =>
      if opens w ev then Some ([], w, ev)
      else match first_opening (fst (step w ev)) rest with
           | Some (pre, w', ev') => Some (ev :: pre, w', ev')
           | None => None
           end
  end.

(* ------------------------------------------------------------------ *)
(** ** Rendering                                                       *)
(* ------------------------------------------------------------------ *)

Inductive Icon : Type :=
  | HomeIcon | InboxIcon | PaperclipIcon | ArchiveIcon
  | SettingsIcon | CompassIcon | FileTextIcon | HashIcon.

Record StaticAction : Type := {
  id : jsstring;
  label : jsstring;
  path : jsstring;
  icon : Icon
}.

(** A [<CommandItem>]: its key, its [onSelect] closure, and its children (an
    icon and a [<span>] of text). *)
Record CommandItem : Type := {
  item_key : jsstring;
  onSelect : OnSelect;
  item_icon : Icon;
  item_text : jsstring
}.

(** Children of [<CommandList>]. *)
Inductive Element : Type :=
  | CommandEmpty (text : jsstring)
  | CommandSeparator
  | CommandGroup (heading : jsstring) (items : list CommandItem).

Record CommandDialog : Type := {
  dialog_open : bool;
  placeholder : jsstring;
  commandList : list Element
}.

(** [Object.keys(obj)]: the keys in the object's iteration order. *)
Definition Object_keys (obj : list (jsstring * nat)) : list jsstring :=
  map fst obj.

Definition memoItems (w : World) : list Memo := memos w.

Definition tagItems (w : World) : list jsstring :=
  sort (Object_keys (tagCount w)).

Definition memoLabel (memo : Memo) : jsstring :=
  or_else (slice (content memo) 0 50) (name memo).

Definition memoItem (memo : Memo) : CommandItem :=
  {| item_key := name memo; onSelect := SelectMemo (name memo);
     item_icon := FileTextIcon; item_text := memoLabel memo |}.

Definition tagItem (tag : jsstring) : CommandItem :=
  {| item_key := tag; onSelect := SelectTag tag;
     item_icon := HashIcon; item_text := lit "#" ++ tag |}.

Definition actionItem (action : StaticAction) : CommandItem :=
  {| item_key := id action; onSelect := SelectPath (path action);
     item_icon := icon action; item_text := label action |}.

(** [{cond && (<> ... </>)}]: the fragment's children when [cond] holds,
    nothing otherwise. *)
Definition renderWhen (cond : bool) (fragment : list Element) : list Element :=
  if cond then fragment else [].

Section WithRoutes.

Variable Routes : RoutesTable.

Definition staticActions : list StaticAction :=
  [ {| id := lit "home"; label := lit "Home"; path := ROOT Routes; icon := HomeIcon |};
    {| id := lit "inbox"; label := lit "Inbox"; path := INBOX Routes; icon := InboxIcon |};
    {| id := lit "attachments"; label := lit "Attachments";
       path := ATTACHMENTS Routes; icon := PaperclipIcon |};
    {| id := lit "archived"; label := lit "Archived"; path := ARCHIVED Routes;
       icon := ArchiveIcon |};
    {| id := lit "settings"; label := lit "Settings"; path := SETTING Routes;
       icon := SettingsIcon |};
    {| id := lit "explore"; label := lit "Explore"; path := EXPLORE Routes;
       icon := CompassIcon |} ].

Definition render (w : World) : CommandDialog :=
  {| dialog_open := open w;
     placeholder := lit "Type a command or search" ++ [ellipsis];
     commandList :=
       ([ CommandEmpty (lit "No results found.");
          CommandGroup (lit "Navigate") (map actionItem staticActions) ]
        ++ renderWhen (0 <? List.length (memoItems w))%nat
             [ CommandSeparator;
               CommandGroup (lit "Recent Memos") (map memoItem (memoItems w)) ]
        ++ renderWhen (0 <? List.length (tagItems w))%nat
             [ CommandSeparator;
               CommandGroup (lit "Tags") (map tagItem (tagItems w)) ])%list |}.

End WithRoutes.

(** The headings of the groups of a rendered list. *)
Fixpoint headings (els : list Element) : list jsstring :=
  match els with
  | [] => []
  | CommandGroup h _ :: tl => h :: headings tl
  | _ :: tl => headings tl
  end.

Fixpoint separators (els : list Element) : nat :=
  match els with
  | [] => 0
  | CommandSeparator :: tl => S (separators tl)
  | _ :: tl => separators tl
  end.

(* ------------------------------------------------------------------ *)
(** ** Vocabulary of the statements                                    *)
(* ------------------------------------------------------------------ *)

(** Keyboard events used as examples: the shortcut, Escape, a plain key. *)
Definition ctrlK : KeyboardEvent :=
  {| key := lit "k"; metaKey := false; ctrlKey := true |}.

Definition escapeKey : KeyboardEvent :=
  {| key := lit "Escape"; metaKey := false; ctrlKey := false |}.

Definition plainA : KeyboardEvent :=
  {| key := lit "a"; metaKey := false; ctrlKey := false |}.

(** The unit [c] occurs in [s]. *)
Fixpoint occurs (c : code_unit) (s : jsstring) : bool :=
  match s with
  | [] => false
  | x :: rest => N.eqb x c || occurs c rest
  end.

(** [seg] is the trailing path segment of [name]: what follows the last
    "/" of [name], or all of [name] when it has none. *)
Definition trailing_segment (name seg : jsstring) : Prop :=
  occurs slash seg = false
  /\ (name = seg \/ exists pre, name = pre ++ lit "/" ++ seg).

(** The world with the palette closed and everything else kept. *)
Definition closed (w : World) : World :=
  {| open := false; hasFetchedMemos := hasFetchedMemos w;
     memos := memos w; tagCount := tagCount w; inflight := inflight w |}.

(** A routing table to run the definitions on. *)
Definition exampleRoutes : RoutesTable :=
  {| ROOT := lit "/"; INBOX := lit "/inbox"; ATTACHMENTS := lit "/attachments";
     ARCHIVED := lit "/archived"; SETTING := lit "/setting"; EXPLORE := lit "/explore" |}.

(** A world in which the palette is open. *)
Definition opened (w : World) : World :=
  {| open := true; hasFetchedMemos := hasFetchedMemos w;
     memos := memos w; tagCount := tagCount w; inflight := inflight w |}.

(** Lexicographic order on strings, unit by unit: the empty string comes
    first, otherwise the first units decide, and equal first units pass the
    comparison on to the rest. *)
Inductive lex_le : jsstring -> jsstring -> Prop :=
  | lex_le_empty (b : jsstring) : lex_le [] b
  | lex_le_head (x y : code_unit) (a b : jsstring) :
      (x < y)%N -> lex_le (x :: a) (y :: b)
  | lex_le_tail (x : code_unit) (a b : jsstring) :
      lex_le a b -> lex_le (x :: a) (x :: b).

(** The keys of the items rendered in the groups with a given heading. *)
Fixpoint groupKeys (h : jsstring) (els : list Element) : list jsstring :=
  match els with
  | [] => []
  | CommandGroup h' items :: tl =>
      if str_eqb h' h then (map item_key items ++ groupKeys h tl)%list
      else groupKeys h tl
  | _ :: tl => groupKeys h tl
  end.

Definition nonempty {A : Type} (l : list A) : bool :=
  match l with
  | [] => false
  | _ :: _ => true
  end.

(** The world after a pending request settled with outcome [o]. *)
Definition settled (o : Outcome) (w : World) : World :=
  {| open := open w; hasFetchedMemos := true;
     memos := storeAfter o (memos w); tagCount := tagCount w;
     inflight := pred (inflight w) |}.

(** The palette was opened and its request is still pending. *)
Definition pendingWorld : World :=
  fst (step (mount [] []) (KeyDown ctrlK)).

(** The key combination that toggles the palette: k or K with the meta or
    the control modifier held. *)
Definition shortcut (e : KeyboardEvent) : Prop :=
  (key e = lit "k" \/ key e = lit "K") /\ (metaKey e = true \/ ctrlKey e = true).

(** Closed-to-open transitions along a trace. *)
Fixpoint openings (w : World) (evs : list Event) : nat :=
  match evs with
  | [] => 0
  | ev :: rest =>
      (if opens w ev then 1 else 0) + openings (fst (step w ev)) rest
  end.

(** Closed-to-open transitions along a trace that happen while the fetched
    flag is still down. *)
Fixpoint fetching_openings (w : World) (evs : list Event) : nat :=
  match evs with
  | [] => 0
  | ev :: rest =>
      (if opens w ev && negb (hasFetchedMemos w) then 1 else 0)
      + fetching_openings (fst (step w ev)) rest
  end.

(** The items rendered in the groups with a given heading. *)
Fixpoint groupItems (h : jsstring) (els : list Element) : list CommandItem :=
  match els with
  | [] => []
  | CommandGroup h' items :: tl =>
      if str_eqb h' h then (items ++ groupItems h tl)%list
      else groupItems h tl
  | _ :: tl => groupItems h tl
  end.

(** [h] is one of the headings [hs]. *)
Definition has_heading (h : jsstring) (hs : list jsstring) : bool :=
  existsb (str_eqb h) hs.

(* ------------------------------------------------------------------ *)
(** ** Basic facts about handlers and effects                          *)
(* ------------------------------------------------------------------ *)

Lemma str_eqb_spec (a b : jsstring) : reflect (a = b) (str_eqb a b).
Proof.
  revert b. induction a as [|x a IH]; intros [|y b]; cbn [str_eqb];
    try (constructor; congruence).
  destruct (N.eqb_spec x y) as [-> | Hxy]; cbn [andb].
  - destruct (IH b) as [-> | Hab]; constructor; congruence.
  - constructor. congruence.
Qed.

Lemma str_eqb_refl (a : jsstring) : str_eqb a a = true.
Proof. destruct (str_eqb_spec a a); [reflexivity | contradiction]. Qed.

Lemma step_unchanged (w : World) (ev : Event) :
  handle ev w = (w, []) -> step w ev = (w, []).
Proof.
  intros H. unfold step, andThen. rewrite H.
  unfold runEffects, deps_changed.
  rewrite !Bool.eqb_reflx. reflexivity.
Qed.

(** An event whose handler leaves the palette closed starts no request,
    whether or not the effect runs. *)
Lemma step_closing (w w1 : World) (ev : Event) (cs : list Call) :
  handle ev w = (w1, cs) ->
  open w1 = false ->
  step w ev = (w1, cs).
Proof.
  intros H Hopen. unfold step, andThen. rewrite H.
  unfold runEffects, fetchEffect, skip. rewrite Hopen.
  destruct (deps_changed w w1); cbn; rewrite app_nil_r; reflexivity.
Qed.

Lemma fetches_app (cs1 cs2 : list Call) :
  fetches (cs1 ++ cs2) = (fetches cs1 ++ fetches cs2)%list.
Proof.
  induction cs1 as [|c cs1 IH]; [reflexivity|].
  destruct c; cbn; rewrite IH; reflexivity.
Qed.

(* ------------------------------------------------------------------ *)
(** ** Keyboard shortcut                                               *)
(* ------------------------------------------------------------------ *)

(** C2. Pressing k or K together with meta or control negates the open flag;
    pressing Escape sets it to false (closing an open palette, changing
    nothing on a closed one); every other key leaves the flag as it was.  The
    effects that run after the handler do not touch the flag. *)
Theorem handleKeyDown_open_flag (w : World) (e : KeyboardEvent) :
  let w' := fst (handleKeyDown e w) in
  ((key e = lit "k" \/ key e = lit "K") /\ (metaKey e = true \/ ctrlKey e = true) ->
     open w' = negb (open w))
  /\ (key e = lit "Escape" -> open w' = false)
  /\ (~ ((key e = lit "k" \/ key e = lit "K") /\ (metaKey e = true \/ ctrlKey e = true)) ->
      key e <> lit "Escape" -> open w' = open w)
  /\ open (fst (step w (KeyDown e))) = open w'.
Proof.
  cbv zeta. repeat split.
  - intros [[Hk | Hk] Hmod]; unfold handleKeyDown; rewrite Hk; cbn;
      destruct Hmod as [Hm | Hc];
      try rewrite Hm; try rewrite Hc; rewrite ?orb_true_r; reflexivity.
  - intros Hesc. unfold handleKeyDown. rewrite Hesc. reflexivity.
  - intros Hshort Hesc. unfold handleKeyDown.
    destruct (str_eqb_spec (key e) (lit "k")) as [Hk | Hk];
      destruct (str_eqb_spec (key e) (lit "K")) as [HK | HK];
      destruct (metaKey e) eqn:Hm; destruct (ctrlKey e) eqn:Hc;
      cbn [andb orb];
      try (exfalso; apply Hshort; tauto);
      destruct (str_eqb_spec (key e) (lit "Escape")); try contradiction;
      reflexivity.
  - unfold step, andThen.
    destruct (handleKeyDown e w) as [w1 c1] eqn:Hh. cbn [handle]. rewrite Hh.
    unfold runEffects, fetchEffect, fetchMemos, skip.
    destruct (deps_changed w w1); [|reflexivity].
    destruct (open w1 && negb (hasFetchedMemos w1)); reflexivity.
Qed.

Lemma handleKeyDown_open_flag_witness :
  open (fst (handleKeyDown ctrlK (mount [] []))) = true
  /\ open (fst (handleKeyDown escapeKey (mount [] []))) = false
  /\ open (fst (handleKeyDown plainA (mount [] []))) = false.
Proof.
  split; [|split].
  - apply (proj1 (handleKeyDown_open_flag (mount [] []) ctrlK)).
    split; [left; reflexivity | right; reflexivity].
  - apply (proj1 (proj2 (handleKeyDown_open_flag (mount [] []) escapeKey))).
    reflexivity.
  - apply (proj1 (proj2 (proj2 (handleKeyDown_open_flag (mount [] []) plainA)))).
    + intros [[Hk | Hk] _]; discriminate Hk.
    + discriminate.
Defined.

(* ------------------------------------------------------------------ *)
(** ** Splitting an identifier                                         *)
(* ------------------------------------------------------------------ *)

Lemma split_nonempty (sep : code_unit) (s : jsstring) : split sep s <> [].
Proof.
  destruct s as [|c rest]; cbn; [discriminate|].
  destruct (N.eqb c sep); [discriminate|].
  destruct (split sep rest); discriminate.
Qed.

Lemma split_no_separator (sep : code_unit) (s : jsstring) :
  occurs sep s = false -> split sep s = [s].
Proof.
  induction s as [|c rest IH]; cbn; [reflexivity|].
  intros H. apply orb_false_elim in H. destruct H as [Hc Hrest].
  rewrite Hc, (IH Hrest). reflexivity.
Qed.

Lemma split_at_separator (sep : code_unit) (pre rest : jsstring) :
  split sep (pre ++ sep :: rest) = (split sep pre ++ split sep rest)%list.
Proof.
  induction pre as [|c pre IH]; cbn.
  - rewrite N.eqb_refl. reflexivity.
  - rewrite IH. destruct (N.eqb c sep); [reflexivity|].
    pose proof (split_nonempty sep pre) as Hne.
    destruct (split sep pre) as [|piece pieces]; [contradiction|reflexivity].
Qed.

Lemma pop_cons (x : jsstring) (l : list jsstring) :
  l <> [] -> pop (x :: l) = pop l.
Proof. destruct l; [contradiction|reflexivity]. Qed.

Lemma pop_app (l1 l2 : list jsstring) :
  l2 <> [] -> pop (l1 ++ l2) = pop l2.
Proof.
  intros Hne. induction l1 as [|x l1 IH]; [reflexivity|].
  cbn [app]. rewrite pop_cons; [exact IH|].
  destruct l1; [exact Hne | discriminate].
Qed.

Lemma pop_split_trailing (name seg : jsstring) :
  trailing_segment name seg -> pop (split slash name) = Some seg.
Proof.
  intros [Hseg [-> | [pre ->]]].
  - rewrite (split_no_separator _ _ Hseg). reflexivity.
  - change (lit "/" ++ seg) with (slash :: seg).
    rewrite split_at_separator, pop_app by apply split_nonempty.
    rewrite (split_no_separator _ _ Hseg). reflexivity.
Qed.

(** Conversely, a last piece that is empty comes from an empty identifier or
    from one that ends in the separator. *)
Lemma pop_split_empty (sep : code_unit) (s : jsstring) :
  pop (split sep s) = Some [] ->
  s = [] \/ exists pre, s = pre ++ [sep].
Proof.
  induction s as [|c rest IH]; [left; reflexivity|].
  intros H. right. cbn [split] in H.
  destruct (N.eqb_spec c sep) as [-> | Hc].
  - rewrite pop_cons in H by apply split_nonempty.
    destruct (IH H) as [-> | [pre ->]].
    + exists []. reflexivity.
    + exists (sep :: pre). reflexivity.
  - pose proof (split_nonempty sep rest) as Hne.
    destruct (split sep rest) as [|piece pieces] eqn:Hs; [contradiction|].
    destruct pieces as [|p2 pieces].
    + cbn in H. discriminate H.
    + change (pop ((c :: piece) :: p2 :: pieces))
        with (pop (piece :: p2 :: pieces)) in H.
      destruct (IH H) as [-> | [pre ->]].
      * cbn in Hs. discriminate Hs.
      * exists (c :: pre). reflexivity.
Qed.

(* ------------------------------------------------------------------ *)
(** ** Selections                                                      *)
(* ------------------------------------------------------------------ *)

Lemma step_handleNavigate (w : World) (p : jsstring) :
  step w (Select (SelectPath p)) = (closed w, [Navigate p]).
Proof. apply step_closing; reflexivity. Qed.

(** C3. Selecting a recent item whose identifier has the non-empty trailing
    segment [seg] makes exactly one call, [navigate("/memos/" + seg)], and
    leaves the palette closed; in particular no filter is added and no
    request is made. *)
Theorem handleMemoSelect_navigates (w : World) (name seg : jsstring) :
  trailing_segment name seg ->
  seg <> [] ->
  step w (Select (SelectMemo name)) = (closed w, [Navigate (lit "/memos/" ++ seg)])
  /\ navigations (snd (step w (Select (SelectMemo name)))) = [lit "/memos/" ++ seg]
  /\ filtersAdded (snd (step w (Select (SelectMemo name)))) = []
  /\ open (fst (step w (Select (SelectMemo name)))) = false.
Proof.
  intros Hseg Hne.
  assert (Hstep : step w (Select (SelectMemo name))
                  = (closed w, [Navigate (lit "/memos/" ++ seg)])).
  { apply step_closing; [|reflexivity].
    cbn [handle runSelect]. unfold handleMemoSelect.
    rewrite (pop_split_trailing Hseg).
    destruct seg; [contradiction|reflexivity]. }
  rewrite Hstep. repeat split.
Qed.

Lemma handleMemoSelect_navigates_witness :
  step (mount [] []) (Select (SelectMemo (lit "memos/abc123")))
  = (closed (mount [] []), [Navigate (lit "/memos/abc123")]).
Proof.
  apply (handleMemoSelect_navigates (mount [] []) (name := lit "memos/abc123")
           (seg := lit "abc123")).
  - split; [reflexivity | right; exists (lit "memos"); reflexivity].
  - discriminate.
Defined.

(** C4. Selecting a tag makes exactly one call, [addFilter] with factor
    "tagSearch" and the tag as value, and leaves the palette closed; there is
    no navigation. *)
Theorem handleTagSelect_adds_filter (w : World) (tag : jsstring) :
  step w (Select (SelectTag tag))
  = (closed w, [AddFilter {| factor := lit "tagSearch"; value := tag |}])
  /\ filtersAdded (snd (step w (Select (SelectTag tag))))
     = [{| factor := lit "tagSearch"; value := tag |}]
  /\ navigations (snd (step w (Select (SelectTag tag)))) = []
  /\ open (fst (step w (Select (SelectTag tag)))) = false.
Proof.
  assert (Hstep : step w (Select (SelectTag tag))
            = (closed w, [AddFilter {| factor := lit "tagSearch"; value := tag |}])).
  { apply step_closing; reflexivity. }
  rewrite Hstep. repeat split.
Qed.

(** C5. The static entries are Home, Inbox, Attachments, Archived, Settings
    and Explore, in this order, with the paths of the routing table.
    Selecting any of them makes exactly one call, [navigate] with the entry's
    path, and leaves the palette closed; no request is made. *)
Theorem staticAction_select (Routes : RoutesTable) (w : World)
    (action : StaticAction) :
  In action (staticActions Routes) ->
  map label (staticActions Routes)
  = [lit "Home"; lit "Inbox"; lit "Attachments"; lit "Archived"; lit "Settings"; lit "Explore"]
  /\ map path (staticActions Routes)
     = [ROOT Routes; INBOX Routes; ATTACHMENTS Routes; ARCHIVED Routes;
        SETTING Routes; EXPLORE Routes]
  /\ step w (Select (onSelect (actionItem action)))
     = (closed w, [Navigate (path action)])
  /\ navigations (snd (step w (Select (onSelect (actionItem action)))))
     = [path action]
  /\ fetches (snd (step w (Select (onSelect (actionItem action))))) = []
  /\ open (fst (step w (Select (onSelect (actionItem action))))) = false.
Proof.
  intros _. cbn [actionItem onSelect]. rewrite step_handleNavigate.
  repeat split.
Qed.

Lemma staticAction_select_witness :
  step (mount [] [])
       (Select (SelectPath (lit "/inbox")))
  = (closed (mount [] []), [Navigate (lit "/inbox")]).
Proof.
  apply (@staticAction_select exampleRoutes (mount [] [])
           {| id := lit "inbox"; label := lit "Inbox"; path := lit "/inbox";
              icon := InboxIcon |}).
  right; left; reflexivity.
Defined.

Lemma handleMemoSelect_Some (name : jsstring) :
  exists uid, pop (split slash name) = Some uid.
Proof.
  pose proof (split_nonempty slash name) as Hne.
  induction (split slash name) as [|x l IH]; [contradiction|].
  destruct l as [|y l]; [exists x; reflexivity|].
  destruct IH as [uid Huid]; [discriminate|].
  exists uid. exact Huid.
Qed.

(** C9. Selecting a recent item whose identifier is empty or ends in "/"
    makes no call at all and changes nothing: the open flag keeps its value,
    so an open palette stays open.  Every other selection leaves the palette
    closed: a selection after which it is still open is of this kind. *)
Theorem handleMemoSelect_empty_segment (w : World) (name : jsstring) :
  (name = [] \/ exists pre, name = pre ++ lit "/") ->
  step w (Select (SelectMemo name)) = (w, [])
  /\ navigations (snd (step w (Select (SelectMemo name)))) = []
  /\ open (fst (step w (Select (SelectMemo name)))) = open w
  /\ (forall sel : OnSelect,
        open (fst (step w (Select sel))) = true ->
        exists n, sel = SelectMemo n
                  /\ (n = [] \/ exists pre, n = pre ++ lit "/")).
Proof.
  intros Hname.
  assert (Hstep : step w (Select (SelectMemo name)) = (w, [])).
  { apply step_unchanged. cbn [handle runSelect]. unfold handleMemoSelect.
    assert (Hseg : trailing_segment name []).
    { split; [reflexivity|].
      destruct Hname as [-> | [pre ->]]; [left; reflexivity|].
      right. exists pre. reflexivity. }
    rewrite (pop_split_trailing Hseg). reflexivity. }
  rewrite Hstep. repeat split.
  intros [p | n | t] Hopen.
  - rewrite step_handleNavigate in Hopen. discriminate Hopen.
  - exists n. split; [reflexivity|].
    destruct (handleMemoSelect_Some n) as [uid Huid].
    destruct uid as [|c uid].
    + destruct (pop_split_empty _ _ Huid) as [-> | [pre ->]];
        [left; reflexivity | right; exists pre; reflexivity].
    + exfalso.
      assert (Hs : step w (Select (SelectMemo n))
                   = (closed w, [Navigate (lit "/memos/" ++ (c :: uid))])).
      { apply step_closing; [|reflexivity].
        cbn [handle runSelect]. unfold handleMemoSelect. rewrite Huid.
        reflexivity. }
      rewrite Hs in Hopen. discriminate Hopen.
  - assert (Hs : step w (Select (SelectTag t))
              = (closed w, [AddFilter {| factor := lit "tagSearch"; value := t |}])).
    { apply step_closing; reflexivity. }
    rewrite Hs in Hopen. discriminate Hopen.
Qed.

Lemma handleMemoSelect_empty_segment_witness :
  step (opened (mount [] [])) (Select (SelectMemo (lit "memos/")))
  = (opened (mount [] []), []).
Proof.
  apply (@handleMemoSelect_empty_segment (opened (mount [] [])) (lit "memos/")).
  right. exists (lit "memos"). reflexivity.
Defined.

(* ------------------------------------------------------------------ *)
(** ** Labels of recent items                                          *)
(* ------------------------------------------------------------------ *)

Lemma slice_from_start (s : jsstring) (n : nat) :
  slice s 0 (Z.of_nat n) = firstn n s.
Proof.
  unfold slice, clamp_index. cbn [Z.ltb Z.compare].
  assert (Hn : (Z.of_nat n <? 0)%Z = false) by (apply Z.ltb_ge; lia).
  rewrite Hn.
  replace (Z.to_nat (Z.min 0 (Z.of_nat (List.length s)))) with 0%nat by lia.
  replace (Z.to_nat (Z.max (Z.min (Z.of_nat n) (Z.of_nat (List.length s))
                            - Z.min 0 (Z.of_nat (List.length s))) 0))
    with (Nat.min n (List.length s)) by lia.
  cbn [skipn].
  destruct (Nat.le_ge_cases n (List.length s)) as [Hle | Hge].
  - rewrite Nat.min_l by exact Hle. reflexivity.
  - rewrite Nat.min_r by exact Hge.
    rewrite !firstn_all2 by lia. reflexivity.
Qed.

(** C10. The text of a recent item is the first 50 characters (UTF-16 code
    units, as [slice] counts them) of the memo's content, all of it when it
    is shorter; when the content is the empty string the text is the memo's
    whole name. *)
Theorem memoLabel_spec (memo : Memo) :
  (content memo <> [] ->
     item_text (memoItem memo) = firstn 50 (content memo))
  /\ (content memo = [] -> item_text (memoItem memo) = name memo).
Proof.
  cbn [memoItem item_text]. unfold memoLabel, or_else. split.
  - intros Hne.
    pose proof (slice_from_start (content memo) 50) as Hs.
    change (Z.of_nat 50) with 50%Z in Hs. rewrite Hs.
    destruct (content memo) as [|c rest]; [contradiction|reflexivity].
  - intros ->. reflexivity.
Qed.

Lemma memoLabel_spec_witness :
  item_text
    (memoItem
       {| name := lit "memos/abc123";
          content :=
            lit "The quick brown fox jumps over the lazy dog and keeps on running" |})
  = lit "The quick brown fox jumps over the lazy dog and ke"
  /\ item_text
       (memoItem {| name := lit "memos/abc123"; content := repeat 12354%N 26 |})
     = repeat 12354%N 26
  /\ item_text (memoItem {| name := lit "memos/abc123"; content := [] |})
     = lit "memos/abc123".
Proof.
  split; [|split].
  - apply (proj1 (memoLabel_spec
             {| name := lit "memos/abc123";
                content :=
                  lit "The quick brown fox jumps over the lazy dog and keeps on running" |})).
    discriminate.
  - apply (proj1 (memoLabel_spec
             {| name := lit "memos/abc123"; content := repeat 12354%N 26 |})).
    discriminate.
  - apply (proj2 (memoLabel_spec
             {| name := lit "memos/abc123"; content := [] |})).
    reflexivity.
Defined.

(* ------------------------------------------------------------------ *)
(** ** The default sort order                                          *)
(* ------------------------------------------------------------------ *)

Lemma str_lt_true_le (a b : jsstring) : str_lt a b = true -> lex_le a b.
Proof.
  revert b. induction a as [|x a IH]; intros [|y b]; cbn [str_lt];
    try discriminate.
  - intros _. constructor.
  - destruct (N.ltb_spec x y) as [Hxy | Hxy].
    + intros _. apply lex_le_head. exact Hxy.
    + destruct (N.ltb_spec y x) as [Hyx | Hyx]; [discriminate|].
      intros H. assert (x = y) as -> by lia.
      apply lex_le_tail. apply IH. exact H.
Qed.

Lemma str_lt_false_le (a b : jsstring) : str_lt a b = false -> lex_le b a.
Proof.
  revert b. induction a as [|x a IH]; intros [|y b]; cbn [str_lt];
    try discriminate; try (intros _; apply lex_le_empty).
  destruct (N.ltb_spec x y) as [Hxy | Hxy]; [discriminate|].
  destruct (N.ltb_spec y x) as [Hyx | Hyx].
  - intros _. apply lex_le_head. exact Hyx.
  - intros H. assert (x = y) as -> by lia.
    apply lex_le_tail. apply IH. exact H.
Qed.

Lemma lex_le_trans (a b c : jsstring) : lex_le a b -> lex_le b c -> lex_le a c.
Proof.
  intros Hab. revert c.
  induction Hab as [b | x y a b Hxy | x a b Hab IH]; intros c Hbc.
  - constructor.
  - inversion Hbc; subst.
    + apply lex_le_head. lia.
    + apply lex_le_head. exact Hxy.
  - inversion Hbc; subst.
    + apply lex_le_head. assumption.
    + apply lex_le_tail. apply IH. assumption.
Qed.

Lemma lex_le_antisym (a b : jsstring) : lex_le a b -> lex_le b a -> a = b.
Proof.
  intros Hab.
  induction Hab as [b | x y a b Hxy | x a b Hab IH]; intros Hba.
  - inversion Hba. reflexivity.
  - inversion Hba; subst; lia.
  - inversion Hba; subst; [lia|]. f_equal. apply IH. assumption.
Qed.

Lemma insert_sorted_perm (x : jsstring) (l : list jsstring) :
  Permutation (x :: l) (insert_sorted x l).
Proof.
  induction l as [|y l IH]; cbn; [apply Permutation_refl|].
  destruct (str_lt x y); [apply Permutation_refl|].
  eapply perm_trans; [apply perm_swap|]. apply perm_skip. exact IH.
Qed.

Lemma insert_sorted_ordered (x : jsstring) (l : list jsstring) :
  StronglySorted lex_le l -> StronglySorted lex_le (insert_sorted x l).
Proof.
  induction 1 as [|y l Hl IH Hy]; cbn.
  - repeat constructor.
  - destruct (str_lt x y) eqn:Hxy.
    + apply str_lt_true_le in Hxy. constructor.
      * constructor; assumption.
      * constructor; [exact Hxy|].
        eapply Forall_impl; [|exact Hy].
        intros z Hz. eapply lex_le_trans; eassumption.
    + apply str_lt_false_le in Hxy. constructor; [exact IH|].
      rewrite Forall_forall in *. intros z Hz.
      apply (Permutation_in _ (Permutation_sym (insert_sorted_perm x l))) in Hz.
      destruct Hz as [<- | Hz]; [exact Hxy | apply Hy; exact Hz].
Qed.

Lemma fold_insert_spec (arr acc : list jsstring) :
  StronglySorted lex_le acc ->
  StronglySorted lex_le (fold_left (fun a x => insert_sorted x a) arr acc)
  /\ Permutation (arr ++ acc)
       (fold_left (fun a x => insert_sorted x a) arr acc).
Proof.
  revert acc. induction arr as [|x arr IH]; intros acc Hacc; cbn.
  - split; [exact Hacc | apply Permutation_refl].
  - destruct (IH (insert_sorted x acc) (insert_sorted_ordered x Hacc))
      as [Hs Hp].
    split; [exact Hs|].
    eapply perm_trans; [|exact Hp].
    eapply perm_trans; [apply Permutation_middle|].
    apply Permutation_app_head. apply insert_sorted_perm.
Qed.

Lemma sort_ordered (arr : list jsstring) : StronglySorted lex_le (sort arr).
Proof. apply fold_insert_spec. constructor. Qed.

Lemma sort_perm (arr : list jsstring) : Permutation arr (sort arr).
Proof.
  pose proof (fold_insert_spec arr (SSorted_nil lex_le)) as [_ Hp].
  rewrite app_nil_r in Hp. exact Hp.
Qed.

(** An ordered arrangement of given elements is unique. *)
Lemma ordered_perm_unique (l1 l2 : list jsstring) :
  StronglySorted lex_le l1 -> StronglySorted lex_le l2 ->
  Permutation l1 l2 -> l1 = l2.
Proof.
  intros H1. revert l2.
  induction H1 as [|a l1 Hl1 IH Ha]; intros l2 H2 Hp.
  - apply Permutation_nil in Hp. symmetry. exact Hp.
  - destruct H2 as [|b l2 Hl2 Hb].
    + apply Permutation_sym, Permutation_nil in Hp. discriminate Hp.
    + assert (a = b) as ->.
      { rewrite Forall_forall in Ha, Hb.
        pose proof (Permutation_in a Hp (or_introl eq_refl)) as [E | Ina];
          [symmetry; exact E|].
        pose proof (Permutation_in b (Permutation_sym Hp) (or_introl eq_refl))
          as [E | Inb]; [exact E|].
        apply lex_le_antisym; [apply Ha | apply Hb]; assumption. }
      f_equal. apply IH; [exact Hl2|].
      eapply Permutation_cons_inv. exact Hp.
Qed.

Lemma sort_perm_invariant (arr1 arr2 : list jsstring) :
  Permutation arr1 arr2 -> sort arr1 = sort arr2.
Proof.
  intros Hp. apply ordered_perm_unique; try apply sort_ordered.
  eapply perm_trans; [apply Permutation_sym, sort_perm|].
  eapply perm_trans; [exact Hp | apply sort_perm].
Qed.

(* ------------------------------------------------------------------ *)
(** ** What is rendered                                                *)
(* ------------------------------------------------------------------ *)

Lemma map_key_tagItem (l : list jsstring) : map item_key (map tagItem l) = l.
Proof. induction l as [|x l IH]; cbn; [|rewrite IH]; reflexivity. Qed.

Lemma rendered_tags (Routes : RoutesTable) (w : World) :
  groupKeys (lit "Tags") (commandList (render Routes w)) = tagItems w.
Proof.
  unfold render. cbn [commandList app groupKeys str_eqb N.eqb Bool.eqb].
  unfold renderWhen.
  destruct (memoItems w) as [|m ms]; destruct (tagItems w) as [|t ts];
    cbn [List.length Nat.ltb Nat.leb app groupKeys str_eqb N.eqb
         Bool.eqb]; try reflexivity;
    rewrite app_nil_r; apply (map_key_tagItem (t :: ts)).
Qed.

Lemma rendered_tag_items (Routes : RoutesTable) (w : World) :
  groupItems (lit "Tags") (commandList (render Routes w)) = map tagItem (tagItems w).
Proof.
  unfold render, renderWhen, memoItems. cbn [commandList].
  destruct (memos w) as [|m ms]; destruct (tagItems w) as [|t ts];
    cbn [List.length Nat.ltb Nat.leb app groupItems str_eqb N.eqb
         Bool.eqb]; rewrite ?app_nil_r; reflexivity.
Qed.

Lemma map_tagItem (l : list jsstring) :
  map item_key (map tagItem l) = l
  /\ map item_text (map tagItem l) = map (fun t => lit "#" ++ t) l
  /\ map onSelect (map tagItem l) = map SelectTag l.
Proof.
  induction l as [|x l (IHk & IHt & IHs)]; [repeat split|].
  cbn [map]. rewrite IHk, IHt, IHs. repeat split.
Qed.

(** C6. The items rendered in the "Tags" group are the keys of the tag-count
    mapping in lexicographic order of their UTF-16 code units: item by item
    the key, the text "#" followed by the key, and the selection of that
    tag.  The rendered keys are an ordered rearrangement of the mapping's
    keys, and the rendered items are the same for any two stores whose keys
    differ only in their iteration order.  A store iterating as b, a renders
    #a, #b. *)
Theorem tagItems_lexicographic (Routes : RoutesTable) (w : World) :
  let items := groupItems (lit "Tags") (commandList (render Routes w)) in
  let rendered := map item_key items in
  rendered = tagItems w
  /\ map item_text items = map (fun t => lit "#" ++ t) rendered
  /\ map onSelect items = map SelectTag rendered
  /\ StronglySorted lex_le rendered
  /\ Permutation (Object_keys (tagCount w)) rendered
  /\ (forall w' : World,
        Permutation (Object_keys (tagCount w')) (Object_keys (tagCount w)) ->
        groupItems (lit "Tags") (commandList (render Routes w')) = items)
  /\ (tagCount w = [(lit "b", 1); (lit "a", 2)] ->
      rendered = [lit "a"; lit "b"]
      /\ map item_text items = [lit "#a"; lit "#b"]).
Proof.
  cbv zeta. rewrite rendered_tag_items.
  destruct (map_tagItem (tagItems w)) as (-> & -> & ->). unfold tagItems.
  split; [reflexivity|]. split; [reflexivity|]. split; [reflexivity|].
  split; [apply sort_ordered|]. split; [apply sort_perm|]. split.
  - intros w' Hp. rewrite rendered_tag_items. unfold tagItems.
    rewrite (sort_perm_invariant Hp). reflexivity.
  - intros ->. split; reflexivity.
Qed.

Lemma tagItems_lexicographic_witness :
  groupItems (lit "Tags")
    (commandList
       (render exampleRoutes (mount [] [(lit "a", 2); (lit "b", 1)])))
  = groupItems (lit "Tags")
      (commandList
         (render exampleRoutes (mount [] [(lit "b", 1); (lit "a", 2)])))
  /\ map item_text
       (groupItems (lit "Tags")
          (commandList
             (render exampleRoutes (mount [] [(lit "b", 1); (lit "a", 2)]))))
     = [lit "#a"; lit "#b"]
  /\ map item_key
       (groupItems (lit "Tags")
          (commandList
             (render exampleRoutes
                (mount [] [([65374%N], 1); ([55357%N; 56832%N], 2)]))))
     = [[55357%N; 56832%N]; [65374%N]].
Proof.
  pose proof (tagItems_lexicographic exampleRoutes
                (mount [] [(lit "b", 1); (lit "a", 2)])) as H.
  cbv zeta in H. destruct H as (_ & _ & _ & _ & _ & Hinv & Hex).
  split; [|split].
  - apply (Hinv (mount [] [(lit "a", 2); (lit "b", 1)])).
    cbn. apply perm_swap.
  - apply Hex. reflexivity.
  - exact (proj1 (tagItems_lexicographic exampleRoutes
                    (mount [] [([65374%N], 1); ([55357%N; 56832%N], 2)]))).
Defined.

Lemma tagItems_nonempty (w : World) :
  nonempty (tagItems w) = nonempty (tagCount w).
Proof.
  unfold tagItems.
  pose proof (Permutation_length (sort_perm (Object_keys (tagCount w)))) as Hlen.
  unfold Object_keys in *. rewrite length_map in Hlen.
  destruct (tagCount w); destruct (sort _); cbn in *; congruence.
Qed.

Lemma render_groups (Routes : RoutesTable) (w : World) :
  headings (commandList (render Routes w))
  = (lit "Navigate"
     :: (if nonempty (memos w) then [lit "Recent Memos"] else [])
     ++ (if nonempty (tagCount w) then [lit "Tags"] else []))%list
  /\ separators (commandList (render Routes w))
     = (if nonempty (memos w) then 1 else 0)
       + (if nonempty (tagCount w) then 1 else 0).
Proof.
  rewrite <- tagItems_nonempty.
  unfold render, renderWhen, memoItems. cbn [commandList].
  destruct (memos w) as [|m ms]; destruct (tagItems w) as [|t ts];
    split; reflexivity.
Qed.

Lemma group_heading_listed (h : jsstring) (items : list CommandItem)
    (els : list Element) :
  In (CommandGroup h items) els -> In h (headings els).
Proof.
  induction els as [|el els IH]; [intros []|].
  intros [-> | Hl]; [left; reflexivity|].
  destruct el; cbn; auto.
Qed.

(** The headings and separators that are left when one of the two lists is
    empty. *)
Lemma empty_groups_absent_core (Routes : RoutesTable) (w : World) :
  (memos w = [] ->
     ~ In (lit "Recent Memos") (headings (commandList (render Routes w)))
     /\ headings (commandList (render Routes w))
        = (lit "Navigate" :: if nonempty (tagCount w) then [lit "Tags"] else [])
     /\ separators (commandList (render Routes w))
        = if nonempty (tagCount w) then 1 else 0)
  /\ (tagCount w = [] ->
      ~ In (lit "Tags") (headings (commandList (render Routes w)))
      /\ headings (commandList (render Routes w))
         = (lit "Navigate" :: if nonempty (memos w) then [lit "Recent Memos"] else [])
      /\ separators (commandList (render Routes w))
         = if nonempty (memos w) then 1 else 0).
Proof.
  destruct (render_groups Routes w) as [Hh Hs].
  split; intros Hempty; rewrite Hempty in Hh, Hs; cbn [nonempty app] in Hh, Hs.
  - split; [|split; [exact Hh | exact Hs]].
    rewrite Hh. destruct (nonempty (tagCount w)); cbn;
      intros H; repeat (destruct H as [H | H]; try discriminate H); exact H.
  - rewrite app_nil_r in Hh. rewrite Nat.add_0_r in Hs.
    split; [|split; [exact Hh | exact Hs]].
    rewrite Hh. destruct (nonempty (memos w)); cbn;
      intros H; repeat (destruct H as [H | H]; try discriminate H); exact H.
Qed.

(** C7. With an empty list of recent memos there is no "Recent Memos" group
    in the rendered list, neither an empty one nor its separator: only the
    "Navigate" group and, for a non-empty tag mapping, one separator and the
    "Tags" group are rendered.  In the same way an empty tag mapping leaves
    no "Tags" group and no separator for it. *)
Theorem empty_groups_absent (Routes : RoutesTable) (w : World) :
  let rendered := commandList (render Routes w) in
  (memos w = [] ->
     ~ In (lit "Recent Memos") (headings rendered)
     /\ (forall items, ~ In (CommandGroup (lit "Recent Memos") items) rendered)
     /\ headings rendered
        = (lit "Navigate" :: if nonempty (tagCount w) then [lit "Tags"] else [])
     /\ separators rendered = if nonempty (tagCount w) then 1 else 0)
  /\ (tagCount w = [] ->
      ~ In (lit "Tags") (headings rendered)
      /\ (forall items, ~ In (CommandGroup (lit "Tags") items) rendered)
      /\ headings rendered
         = (lit "Navigate" :: if nonempty (memos w) then [lit "Recent Memos"] else [])
      /\ separators rendered = if nonempty (memos w) then 1 else 0).
Proof.
  cbv zeta. destruct (empty_groups_absent_core Routes w) as [Hm Ht].
  split; intros Hempty.
  - destruct (Hm Hempty) as (Hno & Hh & Hs).
    repeat split; [exact Hno | | exact Hh | exact Hs].
    intros items H. apply Hno. eapply group_heading_listed. exact H.
  - destruct (Ht Hempty) as (Hno & Hh & Hs).
    repeat split; [exact Hno | | exact Hh | exact Hs].
    intros items H. apply Hno. eapply group_heading_listed. exact H.
Qed.

Lemma empty_groups_absent_witness :
  ~ In (lit "Recent Memos")
      (headings (commandList (render exampleRoutes (mount [] [(lit "b", 1)]))))
  /\ ~ In (lit "Tags")
       (headings
          (commandList
             (render exampleRoutes
                (mount [{| name := lit "memos/abc123"; content := lit "hello" |}] [])))).
Proof.
  split.
  - apply (proj1 (empty_groups_absent exampleRoutes (mount [] [(lit "b", 1)]))).
    reflexivity.
  - apply (proj2 (empty_groups_absent exampleRoutes
                    (mount [{| name := lit "memos/abc123"; content := lit "hello" |}] []))).
    reflexivity.
Defined.

(* ------------------------------------------------------------------ *)
(** ** The fetch effect along a trace                                  *)
(* ------------------------------------------------------------------ *)

(** No handler makes a request by itself, and a handler either leaves the
    fetched flag and the pending promises alone, or it is the [.finally]
    callback of a promise that settled. *)
Lemma handle_cases (w : World) (ev : Event) :
  fetches (snd (handle ev w)) = []
  /\ ((hasFetchedMemos (fst (handle ev w)) = hasFetchedMemos w
       /\ inflight (fst (handle ev w)) = inflight w)
      \/ (open (fst (handle ev w)) = open w
          /\ hasFetchedMemos (fst (handle ev w)) = true
          /\ S (inflight (fst (handle ev w))) = inflight w)).
Proof.
  destruct ev as [e | b | [p | n | t] | o | ms tc]; cbn [handle runSelect].
  - unfold handleKeyDown.
    destruct ((str_eqb (key e) (lit "k") || str_eqb (key e) (lit "K"))
              && (metaKey e || ctrlKey e));
      [|destruct (str_eqb (key e) (lit "Escape"))]; cbn; auto.
  - cbn; auto.
  - cbn; auto.
  - unfold handleMemoSelect.
    destruct (pop (split slash n)) as [[|c u]|]; cbn; auto.
  - cbn; auto.
  - unfold settle. destruct (inflight w) as [|k] eqn:Hk; cbn; [auto|].
    destruct o; cbn; (split; [reflexivity | right; repeat split]).
  - cbn; auto.
Qed.

(** What one event does to the fetch bookkeeping: it starts the request
    (only on a closed-to-open transition with the flag still down), or it
    changes nothing, or it is the settling of a pending request. *)
Lemma step_cases (w : World) (ev : Event) :
  let w' := fst (step w ev) in
  let fs := fetches (snd (step w ev)) in
  (fs = [recentRequest] /\ opens w ev = true
   /\ hasFetchedMemos w = false /\ hasFetchedMemos w' = false
   /\ inflight w' = S (inflight w))
  \/ (fs = [] /\ hasFetchedMemos w' = hasFetchedMemos w
      /\ inflight w' = inflight w
      /\ (opens w ev = true -> hasFetchedMemos w = true))
  \/ (fs = [] /\ hasFetchedMemos w' = true
      /\ S (inflight w') = inflight w /\ opens w ev = false).
Proof.
  cbv zeta. unfold opens.
  destruct (handle_cases w ev) as [Hf Hcase].
  unfold step, andThen.
  destruct (handle ev w) as [w1 c1]. cbn [fst snd] in Hf, Hcase.
  unfold runEffects, fetchEffect, fetchMemos, skip, deps_changed.
  destruct w as [o h ms tc k]; destruct w1 as [o1 h1 ms1 tc1 k1];
    cbn [open hasFetchedMemos inflight memos tagCount] in *.
  destruct Hcase as [[-> ->] | [-> [-> Hk]]].
  - destruct o, o1, h; cbn; rewrite ?fetches_app, ?Hf; cbn; auto 10.
  - right; right.
    destruct o, h; cbn; rewrite ?fetches_app, ?Hf; cbn; auto.
Qed.

Lemma run_cons_fetches (w : World) (ev : Event) (rest : list Event) :
  fetches (snd (run w (ev :: rest)))
  = (fetches (snd (step w ev))
     ++ fetches (snd (run (fst (step w ev)) rest)))%list.
Proof.
  cbn [run]. destruct (step w ev) as [w1 c1]. cbn [fst].
  destruct (run w1 rest) as [w2 c2]. cbn [snd]. apply fetches_app.
Qed.

Lemma run_cons_world (w : World) (ev : Event) (rest : list Event) :
  fst (run w (ev :: rest)) = fst (run (fst (step w ev)) rest).
Proof.
  cbn [run]. destruct (step w ev) as [w1 c1]. cbn [fst].
  destruct (run w1 rest) as [w2 c2]. reflexivity.
Qed.

(** Every request ever made is the one for the twenty newest active memos of
    the workspace root. *)
Lemma run_requests (evs : list Event) (w : World) :
  Forall (eq recentRequest) (fetches (snd (run w evs))).
Proof.
  revert w. induction evs as [|ev rest IH]; intros w; [constructor|].
  rewrite run_cons_fetches. apply Forall_app. split; [|apply IH].
  destruct (step_cases w ev) as [(-> & _) | [(-> & _) | (-> & _)]];
    repeat constructor.
Qed.

(** Once the flag is up it stays up, and no request is made any more. *)
Lemma run_after_fetched (evs : list Event) (w : World) :
  hasFetchedMemos w = true ->
  fetches (snd (run w evs)) = []
  /\ hasFetchedMemos (fst (run w evs)) = true.
Proof.
  revert w. induction evs as [|ev rest IH]; intros w Hw; [split; [reflexivity|exact Hw]|].
  rewrite run_cons_fetches, run_cons_world.
  destruct (step_cases w ev)
    as [(_ & _ & Hh & _) | [(-> & Hh & _) | (-> & Hh & _)]].
  - congruence.
  - apply IH. congruence.
  - apply IH. exact Hh.
Qed.

(** Requests made along a trace on which the palette is never opened while a
    request is pending, by the state of the bookkeeping at its start. *)
Lemma run_fetch_count (evs : list Event) (w : World) :
  settled_before_reopen w evs = true ->
  hasFetchedMemos w = false ->
  (inflight w = 1 -> fetches (snd (run w evs)) = [])
  /\ (inflight w = 0 -> List.length (fetches (snd (run w evs))) <= 1).
Proof.
  revert w. induction evs as [|ev rest IH]; intros w Hcalm Hw;
    [split; intros _; cbn; lia || reflexivity|].
  cbn [settled_before_reopen] in Hcalm.
  apply andb_prop in Hcalm. destruct Hcalm as [Hev Hrest].
  rewrite run_cons_fetches.
  destruct (step_cases w ev)
    as [(-> & Ho & _ & Hh' & Hk') | [(-> & Hh' & Hk' & _) | (-> & Hh' & Hk' & _)]].
  - rewrite Ho in Hev. apply Nat.eqb_eq in Hev.
    split; intros Hk; [lia|].
    destruct (IH _ Hrest Hh') as [H1 _].
    rewrite H1 by lia. cbn. lia.
  - rewrite Hw in Hh'. destruct (IH _ Hrest Hh') as [H1 H0].
    rewrite Hk' in H1, H0. cbn [app]. split; assumption.
  - destruct (run_after_fetched rest _ Hh') as [-> _].
    split; intros _; cbn; [reflexivity | lia].
Qed.

(** Up to the first closed-to-open transition nothing is requested; that
    transition makes the request. *)
Lemma run_first_opening (evs : list Event) (w : World) :
  hasFetchedMemos w = false -> inflight w = 0 ->
  match first_opening w evs with
  | None => fetches (snd (run w evs)) = []
  | Some (pre, w1, ev) =>
      fst (run w pre) = w1
      /\ fetches (snd (run w pre)) = []
      /\ opens w1 ev = true
      /\ fetches (snd (step w1 ev)) = [recentRequest]
      /\ 1 <= List.length (fetches (snd (run w evs)))
  end.
Proof.
  revert w. induction evs as [|ev rest IH]; intros w Hh Hk; [reflexivity|].
  cbn [first_opening]. rewrite run_cons_fetches.
  destruct (step_cases w ev)
    as [(Hf & Ho & _) | [(Hf & Hh' & Hk' & Ho) | (_ & _ & Hk' & _)]].
  - rewrite Ho, Hf.
    split; [reflexivity|]. split; [reflexivity|]. split; [exact Ho|].
    split; [reflexivity|]. cbn. lia.
  - destruct (opens w ev) eqn:Hopens; [specialize (Ho eq_refl); congruence|].
    rewrite Hf. cbn [app].
    assert (Hh1 : hasFetchedMemos (fst (step w ev)) = false) by congruence.
    assert (Hk1 : inflight (fst (step w ev)) = 0) by congruence.
    specialize (IH _ Hh1 Hk1).
    destruct (first_opening (fst (step w ev)) rest) as [[[pre w1] ev1]|];
      [|exact IH].
    destruct IH as (Hw1 & Hpre & Hopen & Hreq & Hlen).
    rewrite run_cons_world, run_cons_fetches, Hf.
    split; [exact Hw1|]. split; [exact Hpre|]. split; [exact Hopen|].
    split; [exact Hreq | exact Hlen].
  - lia.
Qed.

(** C1 (amended). Along every trace of a mounted palette on which no
    closed-to-open transition happens while a request is still pending, at
    most one request for recent memos is made.  It is made by the first
    closed-to-open transition and by nothing before it, its parameters are
    parent "", state NORMAL, order "display_time desc" and page size 20, and
    no later reopening makes another one. *)
Theorem fetch_once_when_settled (ms : list Memo) (tc : list (jsstring * nat))
    (evs : list Event) :
  settled_before_reopen (mount ms tc) evs = true ->
  let requests := fetches (snd (run (mount ms tc) evs)) in
  List.length requests <= 1
  /\ Forall (eq {| parent := lit ""; state := NORMAL;
                   orderBy := lit "display_time desc"; pageSize := 20 |}) requests
  /\ match first_opening (mount ms tc) evs with
     | None => requests = []
     | Some (pre, w1, ev) =>
         fst (run (mount ms tc) pre) = w1
         /\ fetches (snd (run (mount ms tc) pre)) = []
         /\ fetches (snd (step w1 ev)) = [recentRequest]
         /\ requests = [recentRequest]
     end.
Proof.
  intros Hcalm. cbv zeta.
  destruct (run_fetch_count evs (mount ms tc) Hcalm eq_refl) as [_ Hle].
  specialize (Hle eq_refl).
  pose proof (run_requests evs (mount ms tc)) as Hall.
  split; [exact Hle|]. split; [exact Hall|].
  pose proof (run_first_opening evs (mount ms tc) eq_refl eq_refl) as Hfirst.
  destruct (first_opening (mount ms tc) evs) as [[[pre w1] ev]|];
    [|exact Hfirst].
  destruct Hfirst as (Hw1 & Hpre & _ & Hreq & Hlen).
  split; [exact Hw1|]. split; [exact Hpre|]. split; [exact Hreq|].
  destruct (fetches (snd (run (mount ms tc) evs))) as [|r [|r' rs]];
    cbn in Hle, Hlen; try lia.
  inversion Hall; subst. reflexivity.
Qed.

Lemma fetch_once_when_settled_witness :
  List.length
    (fetches
       (snd (run (mount [] [])
               [KeyDown ctrlK; Settled (Rejected (lit "offline"));
                KeyDown escapeKey; KeyDown ctrlK]))) <= 1.
Proof.
  apply (@fetch_once_when_settled [] []
           [KeyDown ctrlK; Settled (Rejected (lit "offline"));
            KeyDown escapeKey; KeyDown ctrlK]).
  reflexivity.
Defined.

(** C1 as stated fails: opening, closing and reopening the palette before
    the first request has settled makes the request twice. *)
Lemma fetch_once_counterexample :
  fetches
    (snd (run (mount [] []) [KeyDown ctrlK; KeyDown escapeKey; KeyDown ctrlK]))
  = [recentRequest; recentRequest]
  /\ ~ (List.length
          (fetches
             (snd (run (mount [] [])
                     [KeyDown ctrlK; KeyDown escapeKey; KeyDown ctrlK])))
        <= 1).
Proof.
  split; [reflexivity|]. cbn. lia.
Qed.

(* ------------------------------------------------------------------ *)
(** ** Settling of the request                                         *)
(* ------------------------------------------------------------------ *)

(** One settling event, its effects included. *)
Lemma step_settled (w : World) (o : Outcome) :
  0 < inflight w ->
  step w (Settled o) = (settled o w, snd (finallyPromise o w)).
Proof.
  intros Hk. unfold step, andThen. cbn [handle]. unfold settle, settled.
  destruct w as [op h ms tc k]. cbn [inflight] in *.
  destruct k as [|k]; [lia|].
  unfold andThen, setHasFetchedMemos, finallyPromise, runEffects, fetchEffect,
    deps_changed, skip.
  cbn [open hasFetchedMemos memos tagCount inflight pred].
  destruct o; destruct op, h; reflexivity.
Qed.

(** C8 (the code departs from the claim). When a pending request settles,
    fulfilled or rejected, the fetched flag is set, and from then on no
    event makes a request, so a failed request is not retried by reopening
    the palette.  A rejection leaves the store's snapshot as it was; an
    empty list of recent memos therefore stays empty and its group stays
    absent.  But this is not the only consequence of a failure: where a
    fulfilled request calls nothing, a rejected one also rejects the promise
    returned by [.finally], which nothing handles, and the rejection reaches
    the runtime with the reason of the failure. *)
Theorem settle_sets_fetched_flag (Routes : RoutesTable) (w : World)
    (o : Outcome) (evs : list Event) :
  0 < inflight w ->
  let w' := fst (step w (Settled o)) in
  hasFetchedMemos w' = true
  /\ fetches (snd (run w' evs)) = []
  /\ hasFetchedMemos (fst (run w' evs)) = true
  /\ (forall result : list Memo,
        o = Fulfilled result -> snd (step w (Settled o)) = [])
  /\ (forall reason : jsstring,
        o = Rejected reason ->
        snd (step w (Settled o)) = [UnhandledRejection reason]
        /\ memos w' = memos w
        /\ commandList (render Routes w') = commandList (render Routes w)
        /\ (memos w = [] ->
            ~ In (lit "Recent Memos")
                (headings (commandList (render Routes w'))))).
Proof.
  intros Hk. cbv zeta. rewrite (@step_settled w o Hk). cbn [fst snd].
  split; [reflexivity|].
  destruct (run_after_fetched evs (settled o w) eq_refl) as [Hno Hflag].
  split; [exact Hno|]. split; [exact Hflag|]. split.
  - intros result ->. reflexivity.
  - intros reason ->. split; [reflexivity|]. split; [reflexivity|].
    split; [reflexivity|]. intros Hempty.
    apply (proj1 (empty_groups_absent_core Routes (settled (Rejected reason) w))).
    exact Hempty.
Qed.

Lemma settle_sets_fetched_flag_witness :
  snd (step pendingWorld (Settled (Rejected (lit "offline"))))
  = [UnhandledRejection (lit "offline")]
  /\ hasFetchedMemos
       (fst (step pendingWorld (Settled (Rejected (lit "offline"))))) = true
  /\ fetches
       (snd (run (fst (step pendingWorld (Settled (Rejected (lit "offline")))))
               [KeyDown escapeKey; KeyDown ctrlK])) = [].
Proof.
  assert (Hk : 0 < inflight pendingWorld) by (cbn; lia).
  pose proof (@settle_sets_fetched_flag exampleRoutes pendingWorld
                (Rejected (lit "offline")) [KeyDown escapeKey; KeyDown ctrlK]
                Hk) as H.
  cbv zeta in H. destruct H as (Hflag & Hno & _ & _ & Hrej).
  destruct (Hrej (lit "offline") eq_refl) as (Hcall & _).
  split; [exact Hcall|]. split; [exact Hflag | exact Hno].
Defined.

(* ------------------------------------------------------------------ *)
(** ** Further properties of the keyboard handler                      *)
(* ------------------------------------------------------------------ *)

Lemma shortcut_test (e : KeyboardEvent) :
  shortcut e ->
  (str_eqb (key e) (lit "k") || str_eqb (key e) (lit "K"))
  && (metaKey e || ctrlKey e) = true.
Proof.
  intros [[Hk | Hk] [Hm | Hm]]; rewrite Hk, Hm; cbn;
    rewrite ?orb_true_r; reflexivity.
Qed.

Lemma not_shortcut_test (e : KeyboardEvent) :
  ~ shortcut e ->
  (str_eqb (key e) (lit "k") || str_eqb (key e) (lit "K"))
  && (metaKey e || ctrlKey e) = false.
Proof.
  intros Hn. unfold shortcut in Hn.
  destruct (str_eqb_spec (key e) (lit "k")); destruct (str_eqb_spec (key e) (lit "K"));
    destruct (metaKey e); destruct (ctrlKey e); cbn; try reflexivity;
    exfalso; apply Hn; tauto.
Qed.

Lemma escape_not_shortcut (e : KeyboardEvent) :
  key e = lit "Escape" -> ~ shortcut e.
Proof. intros He [[Hk | Hk] _]; rewrite He in Hk; discriminate Hk. Qed.

Lemma step_shortcut (w : World) (e : KeyboardEvent) :
  shortcut e ->
  step w (KeyDown e)
  = if negb (open w) && negb (hasFetchedMemos w)
    then ({| open := true; hasFetchedMemos := false; memos := memos w;
             tagCount := tagCount w; inflight := S (inflight w) |},
          [PreventDefault; FetchMemos recentRequest])
    else ({| open := negb (open w); hasFetchedMemos := hasFetchedMemos w;
             memos := memos w; tagCount := tagCount w;
             inflight := inflight w |},
          [PreventDefault]).
Proof.
  intros Hs. unfold step, andThen. cbn [handle]. unfold handleKeyDown.
  rewrite (shortcut_test Hs).
  destruct w as [o h ms tc k]. destruct o, h; reflexivity.
Qed.

Lemma step_escape (w : World) (e : KeyboardEvent) :
  key e = lit "Escape" -> step w (KeyDown e) = (closed w, []).
Proof.
  intros He. apply step_closing; [|reflexivity].
  cbn [handle]. unfold handleKeyDown.
  rewrite (not_shortcut_test (escape_not_shortcut He)), He. reflexivity.
Qed.

(** X1. The handler calls [preventDefault] on the shortcut and on nothing
    else, Escape included; a key press never navigates and never adds a
    filter. *)
Theorem handleKeyDown_preventDefault (w : World) (e : KeyboardEvent) :
  (shortcut e -> snd (handleKeyDown e w) = [PreventDefault])
  /\ (~ shortcut e -> snd (handleKeyDown e w) = [])
  /\ navigations (snd (step w (KeyDown e))) = []
  /\ filtersAdded (snd (step w (KeyDown e))) = [].
Proof.
  split; [|split].
  - intros Hs. unfold handleKeyDown. rewrite (shortcut_test Hs). reflexivity.
  - intros Hn. unfold handleKeyDown. rewrite (not_shortcut_test Hn).
    destruct (str_eqb (key e) (lit "Escape")); reflexivity.
  - unfold step, andThen. cbn [handle]. unfold handleKeyDown.
    destruct w as [o h ms tc k].
    destruct ((str_eqb (key e) (lit "k") || str_eqb (key e) (lit "K"))
              && (metaKey e || ctrlKey e));
      [|destruct (str_eqb (key e) (lit "Escape"))];
      destruct o, h; split; reflexivity.
Qed.

Lemma handleKeyDown_preventDefault_witness :
  snd (handleKeyDown ctrlK (mount [] [])) = [PreventDefault]
  /\ snd (handleKeyDown escapeKey (mount [] [])) = [].
Proof.
  split.
  - apply (proj1 (handleKeyDown_preventDefault (mount [] []) ctrlK)).
    split; [left; reflexivity | right; reflexivity].
  - apply (proj1 (proj2 (handleKeyDown_preventDefault (mount [] []) escapeKey))).
    apply escape_not_shortcut. reflexivity.
Defined.

(** X2. Pressing the shortcut twice in a row brings the open flag back to
    where it was, and the two presses together make the request for recent
    memos exactly once when the fetched flag is down and not at all when it
    is up, whether the palette was open or closed to begin with. *)
Theorem shortcut_twice (w : World) (e : KeyboardEvent) :
  shortcut e ->
  open (fst (run w [KeyDown e; KeyDown e])) = open w
  /\ hasFetchedMemos (fst (run w [KeyDown e; KeyDown e])) = hasFetchedMemos w
  /\ fetches (snd (run w [KeyDown e; KeyDown e]))
     = if hasFetchedMemos w then [] else [recentRequest].
Proof.
  intros Hs. cbn [run]. rewrite (step_shortcut w Hs).
  destruct w as [o h ms tc k].
  destruct o, h; cbn [negb andb open hasFetchedMemos];
    rewrite (step_shortcut _ Hs); cbn; repeat split.
Qed.

Lemma shortcut_twice_witness :
  fetches (snd (run (opened (mount [] [])) [KeyDown ctrlK; KeyDown ctrlK]))
  = [recentRequest].
Proof.
  apply (@shortcut_twice (opened (mount [] [])) ctrlK).
  split; [left; reflexivity | right; reflexivity].
Defined.

(** X3. Escape closes the palette without any call, with or without
    modifiers held; so does the dialog's own close notification, and the two
    one after the other do what one of them does.  On a closed palette
    Escape changes nothing. *)
Theorem close_idempotent (w : World) (e : KeyboardEvent) :
  key e = lit "Escape" ->
  step w (KeyDown e) = (closed w, [])
  /\ step w (OpenChange false) = (closed w, [])
  /\ run w [KeyDown e; OpenChange false] = (closed w, [])
  /\ (open w = false -> step w (KeyDown e) = (w, [])).
Proof.
  intros He.
  assert (Hc : forall w0, step w0 (OpenChange false) = (closed w0, []))
    by (intros w0; apply step_closing; reflexivity).
  split; [apply step_escape; exact He|]. split; [apply Hc|]. split.
  - cbn [run]. rewrite (@step_escape w e He), Hc. reflexivity.
  - intros Ho. rewrite (@step_escape w e He). destruct w as [o h ms tc k].
    cbn in Ho. subst o. reflexivity.
Qed.

Lemma close_idempotent_witness :
  run (opened (mount [] [])) [KeyDown escapeKey; OpenChange false]
  = (closed (opened (mount [] [])), []).
Proof.
  apply (@close_idempotent (opened (mount [] [])) escapeKey). reflexivity.
Defined.

(* ------------------------------------------------------------------ *)
(** ** Further properties of the fetch effect                          *)
(* ------------------------------------------------------------------ *)

Lemma step_fetches (w : World) (ev : Event) :
  fetches (snd (step w ev))
  = if opens w ev && negb (hasFetchedMemos w) then [recentRequest] else [].
Proof.
  destruct (step_cases w ev)
    as [(-> & -> & -> & _) | [(-> & _ & _ & Ho) | (-> & _ & _ & ->)]];
    try reflexivity.
  destruct (opens w ev); [|reflexivity].
  rewrite (Ho eq_refl). reflexivity.
Qed.

(** X4. Whatever the trace and wherever it starts, the requests made along
    it are as many copies of the one request for recent memos as there are
    closed-to-open transitions with the fetched flag still down; no other
    event makes a request, so there are never more requests than
    closed-to-open transitions. *)
Theorem requests_per_opening (w : World) (evs : list Event) :
  fetches (snd (run w evs)) = repeat recentRequest (fetching_openings w evs)
  /\ fetching_openings w evs <= openings w evs.
Proof.
  revert w. induction evs as [|ev rest IH]; intros w; [split; reflexivity|].
  destruct (IH (fst (step w ev))) as [Hreq Hle].
  rewrite run_cons_fetches, step_fetches, Hreq.
  cbn [fetching_openings openings]. split.
  - destruct (opens w ev && negb (hasFetchedMemos w)); reflexivity.
  - destruct (opens w ev); cbn [andb]; [|lia].
    destruct (negb (hasFetchedMemos w)); lia.
Qed.

Lemma step_flag (w : World) (ev : Event) :
  hasFetchedMemos (fst (step w ev)) = hasFetchedMemos (fst (handle ev w)).
Proof.
  unfold step, andThen. destruct (handle ev w) as [w1 c1].
  unfold runEffects, fetchEffect, fetchMemos, skip.
  destruct (deps_changed w w1); [|reflexivity].
  destruct (open w1 && negb (hasFetchedMemos w1)); reflexivity.
Qed.

(** Only the settling of a pending request raises the flag. *)
Lemma step_flag_raised (w : World) (ev : Event) :
  hasFetchedMemos w = false ->
  hasFetchedMemos (fst (step w ev)) = true ->
  (exists o, ev = Settled o) /\ 0 < inflight w.
Proof.
  intros Hw. rewrite step_flag.
  destruct ev as [e | b | [p | n | t] | o | ms tc]; cbn [handle runSelect].
  - unfold handleKeyDown.
    destruct ((str_eqb (key e) (lit "k") || str_eqb (key e) (lit "K"))
              && (metaKey e || ctrlKey e));
      [|destruct (str_eqb (key e) (lit "Escape"))]; cbn; congruence.
  - cbn; congruence.
  - cbn; congruence.
  - unfold handleMemoSelect.
    destruct (pop (split slash n)) as [[|c u]|]; cbn; congruence.
  - cbn; congruence.
  - unfold settle. destruct (inflight w) as [|k] eqn:Hk; cbn; [congruence|].
    intros _. split; [exists o; reflexivity | lia].
  - cbn; congruence.
Qed.

Lemma run_flag_raised (evs : list Event) (w : World) :
  hasFetchedMemos (fst (run w evs)) = true ->
  hasFetchedMemos w = true
  \/ ((0 < inflight w \/ fetches (snd (run w evs)) <> [])
      /\ exists o, In (Settled o) evs).
Proof.
  revert w. induction evs as [|ev rest IH]; intros w; [left; assumption|].
  rewrite run_cons_world, run_cons_fetches. intros Hend.
  destruct (hasFetchedMemos w) eqn:Hw; [left; reflexivity|]. right.
  destruct (IH _ Hend) as [Hraised | [Hreq [o Ho]]].
  - destruct (step_flag_raised w ev Hw Hraised) as [[o ->] Hk].
    split; [left; exact Hk | exists o; left; reflexivity].
  - split; [|exists o; right; exact Ho].
    destruct Hreq as [Hk | Hne].
    + destruct (step_cases w ev)
        as [(-> & _) | [(_ & _ & Hk' & _) | (_ & _ & Hk' & _)]].
      * right. discriminate.
      * left. lia.
      * left. lia.
    + right. intros Happ. apply app_eq_nil in Happ. apply Hne, Happ.
Qed.

(** X5. The fetched flag of a mounted palette is raised by nothing but the
    settling of its own request: when it is up at the end of a trace, a
    request was made along the trace and the trace contains its settling. *)
Theorem fetched_flag_history (ms : list Memo) (tc : list (jsstring * nat))
    (evs : list Event) :
  hasFetchedMemos (fst (run (mount ms tc) evs)) = true ->
  fetches (snd (run (mount ms tc) evs)) <> []
  /\ exists o, In (Settled o) evs.
Proof.
  intros Hend.
  destruct (run_flag_raised evs (mount ms tc) Hend) as [H | [[Hk | Hreq] Hs]].
  - discriminate H.
  - cbn in Hk. lia.
  - split; assumption.
Qed.

Lemma fetched_flag_history_witness :
  fetches
    (snd (run (mount [] []) [KeyDown ctrlK; Settled (Rejected (lit "offline"))]))
  <> [].
Proof.
  apply (@fetched_flag_history [] []
           [KeyDown ctrlK; Settled (Rejected (lit "offline"))]).
  reflexivity.
Defined.

(* ------------------------------------------------------------------ *)
(** ** Further properties of the selections                            *)
(* ------------------------------------------------------------------ *)

Lemma split_single (sep : code_unit) (s p : jsstring) :
  split sep s = [p] -> p = s /\ occurs sep s = false.
Proof.
  revert p. induction s as [|c rest IH]; intros p; cbn [split occurs].
  - intros H. injection H as <-. split; reflexivity.
  - pose proof (split_nonempty sep rest) as Hne.
    destruct (N.eqb c sep) eqn:Hc.
    + destruct (split sep rest); [contradiction | discriminate].
    + destruct (split sep rest) as [|piece pieces] eqn:Hs; [contradiction|].
      intros H. injection H as <- ->.
      destruct (IH piece eq_refl) as [-> Hocc].
      rewrite Hocc. split; reflexivity.
Qed.

(** The last piece of a split has no separator in it and is what follows the
    last separator of the string. *)
Lemma pop_split_segment (sep : code_unit) (s u : jsstring) :
  pop (split sep s) = Some u ->
  occurs sep u = false
  /\ (s = u \/ exists pre, s = pre ++ sep :: u).
Proof.
  revert u. induction s as [|c rest IH]; intros u H.
  - cbn in H. injection H as <-. split; [reflexivity | left; reflexivity].
  - cbn [split] in H. destruct (N.eqb_spec c sep) as [-> | Hc].
    + rewrite pop_cons in H by apply split_nonempty.
      destruct (IH u H) as [Hocc [-> | [pre ->]]]; split; try exact Hocc; right.
      * exists []. reflexivity.
      * exists (sep :: pre). reflexivity.
    + pose proof (split_nonempty sep rest) as Hne.
      destruct (split sep rest) as [|piece pieces] eqn:Hs; [contradiction|].
      destruct pieces as [|p2 pieces].
      * cbn in H. injection H as <-.
        destruct (split_single _ _ Hs) as [-> Hocc].
        split; [|left; reflexivity].
        cbn [occurs]. rewrite Hocc.
        destruct (N.eqb_spec c sep); [contradiction | reflexivity].
      * change (pop ((c :: piece) :: p2 :: pieces))
          with (pop (piece :: p2 :: pieces)) in H.
        destruct (IH u H) as [Hocc [-> | [pre ->]]]; split; try exact Hocc.
        -- rewrite (split_no_separator _ _ Hocc) in Hs. discriminate Hs.
        -- right. exists (c :: pre). reflexivity.
Qed.

(** X6. Whatever identifier a recent item carries, selecting it either does
    nothing at all (the identifier is empty or ends in "/"), or makes the
    single call [navigate("/memos/" + uid)] and closes the palette, where
    [uid] is not empty, contains no "/" and is what follows the last "/" of
    the identifier (the whole identifier when it has none). *)
Theorem handleMemoSelect_target (w : World) (name : jsstring) :
  (trailing_segment name [] /\ step w (Select (SelectMemo name)) = (w, []))
  \/ exists uid,
       uid <> [] /\ trailing_segment name uid
       /\ step w (Select (SelectMemo name))
          = (closed w, [Navigate (lit "/memos/" ++ uid)]).
Proof.
  destruct (handleMemoSelect_Some name) as [uid Huid].
  destruct (pop_split_segment _ _ Huid) as [Hocc Hend].
  assert (Hseg : trailing_segment name uid) by (split; assumption).
  destruct uid as [|c uid].
  - left. split; [exact Hseg|]. apply step_unchanged.
    cbn [handle runSelect]. unfold handleMemoSelect. rewrite Huid. reflexivity.
  - right. exists ((c :: uid)). split; [discriminate|]. split; [exact Hseg|].
    apply step_closing; [|reflexivity].
    cbn [handle runSelect]. unfold handleMemoSelect. rewrite Huid. reflexivity.
Qed.

(** X7. A selection of any kind makes no request and keeps the fetched flag,
    the stores and the pending promises as they are: it either changes
    nothing and calls nothing, or it closes the palette and makes exactly
    one call, a navigation or the addition of a filter. *)
Theorem select_single_effect (w : World) (sel : OnSelect) :
  fetches (snd (step w (Select sel))) = []
  /\ (step w (Select sel) = (w, [])
      \/ exists c,
           step w (Select sel) = (closed w, [c])
           /\ ((exists p, c = Navigate p) \/ (exists f, c = AddFilter f))).
Proof.
  assert (H : step w (Select sel) = (w, [])
              \/ exists c,
                   step w (Select sel) = (closed w, [c])
                   /\ ((exists p, c = Navigate p) \/ (exists f, c = AddFilter f))).
  { destruct sel as [p | n | t].
    - right. exists (Navigate p). split; [apply step_handleNavigate|].
      left. exists p. reflexivity.
    - destruct (handleMemoSelect_Some n) as [[|c uid] Huid].
      + left. apply step_unchanged. cbn [handle runSelect].
        unfold handleMemoSelect. rewrite Huid. reflexivity.
      + right. exists (Navigate (lit "/memos/" ++ (c :: uid))).
        split; [|left; eexists; reflexivity].
        apply step_closing; [|reflexivity]. cbn [handle runSelect].
        unfold handleMemoSelect. rewrite Huid. reflexivity.
    - right. exists (AddFilter {| factor := lit "tagSearch"; value := t |}).
      split; [apply step_closing; reflexivity|].
      right. eexists. reflexivity. }
  split; [|exact H].
  destruct H as [-> | [c [-> [[p ->] | [f ->]]]]]; reflexivity.
Qed.

(* ------------------------------------------------------------------ *)
(** ** Further properties of the rendered list                         *)
(* ------------------------------------------------------------------ *)

(** X8. The "Navigate" group is always rendered; the "Recent Memos" group
    is rendered exactly when there are recent memos and the "Tags" group
    exactly when the tag mapping has keys.  No heading is rendered twice and
    there is one separator less than there are groups. *)
Theorem render_group_structure (Routes : RoutesTable) (w : World) :
  let hs := headings (commandList (render Routes w)) in
  has_heading (lit "Navigate") hs = true
  /\ has_heading (lit "Recent Memos") hs = nonempty (memos w)
  /\ has_heading (lit "Tags") hs = nonempty (tagCount w)
  /\ NoDup hs
  /\ S (separators (commandList (render Routes w))) = List.length hs.
Proof.
  cbv zeta. destruct (render_groups Routes w) as [-> ->].
  destruct (nonempty (memos w)); destruct (nonempty (tagCount w));
    (split; [reflexivity|]); (split; [reflexivity|]); (split; [reflexivity|]);
    (split; [|reflexivity]);
    repeat (constructor; [cbn; intuition discriminate|]); constructor.
Qed.

Lemma rendered_groups_items (Routes : RoutesTable) (w : World) :
  groupItems (lit "Navigate") (commandList (render Routes w))
  = map actionItem (staticActions Routes)
  /\ groupItems (lit "Recent Memos") (commandList (render Routes w))
     = map memoItem (memos w).
Proof.
  unfold render, renderWhen, memoItems. cbn [commandList].
  destruct (memos w) as [|m ms]; destruct (tagItems w) as [|t ts];
    cbn [List.length Nat.ltb Nat.leb app groupItems str_eqb N.eqb
         Bool.eqb]; rewrite ?app_nil_r; split; reflexivity.
Qed.

Lemma map_memoItem (ms : list Memo) :
  map item_key (map memoItem ms) = map name ms
  /\ map onSelect (map memoItem ms) = map (fun m => SelectMemo (name m)) ms.
Proof.
  induction ms as [|m ms [IHk IHs]]; [split; reflexivity|].
  cbn [map]. rewrite IHk, IHs. split; reflexivity.
Qed.

(** X9. The "Recent Memos" group has one item per memo of the store's
    snapshot, in the snapshot's order: the item's key is the memo's name and
    selecting it is [handleMemoSelect] of that name.  The "Navigate" group
    always has its six items. *)
Theorem recent_group_items (Routes : RoutesTable) (w : World) :
  let recent := groupItems (lit "Recent Memos") (commandList (render Routes w)) in
  map item_key recent = map name (memos w)
  /\ map onSelect recent = map (fun m => SelectMemo (name m)) (memos w)
  /\ List.length recent = List.length (memos w)
  /\ List.length (groupItems (lit "Navigate") (commandList (render Routes w))) = 6.
Proof.
  cbv zeta. destruct (rendered_groups_items Routes w) as [-> ->].
  destruct (map_memoItem (memos w)) as [-> ->].
  rewrite !length_map. repeat split.
Qed.

(** X10. The text of a recent item never has more than 50 code units of
    the memo's content: its length is the smaller of 50 and the content's
    length, or the length of the name when the content is empty.  The text
    is empty only for a memo whose content and name are both empty. *)
Theorem memoLabel_length (memo : Memo) :
  List.length (memoLabel memo)
  = (if truthy (content memo)
     then Nat.min 50 (List.length (content memo))
     else List.length (name memo))
  /\ truthy (memoLabel memo) = truthy (content memo) || truthy (name memo).
Proof.
  pose proof (slice_from_start (content memo) 50) as Hs.
  change (Z.of_nat 50) with 50%Z in Hs.
  unfold memoLabel, or_else. rewrite Hs.
  destruct (content memo) as [|c rest].
  - cbn. split; reflexivity.
  - assert (Ht : truthy (firstn 50 (c :: rest)) = true) by reflexivity.
    rewrite Ht. cbn [truthy orb].
    split; [apply length_firstn | exact Ht].
Qed.

Lemma memoLabel_length_witness :
  List.length
    (memoLabel
       {| name := lit "memos/abc123";
          content :=
            lit "The quick brown fox jumps over the lazy dog and keeps on running" |})
  = 50
  /\ List.length
       (memoLabel
          {| name := lit "memos/abc123"; content := repeat 12354%N 26 |})
     = 26.
Proof.
  split.
  - exact (proj1 (memoLabel_length
             {| name := lit "memos/abc123";
                content :=
                  lit "The quick brown fox jumps over the lazy dog and keeps on running" |})).
  - exact (proj1 (memoLabel_length
             {| name := lit "memos/abc123"; content := repeat 12354%N 26 |})).
Defined.

(** X11. The rendered tags are the keys of the tag mapping, each as often as
    it is a key: a tag is rendered exactly when it is a key, there are as
    many rendered tags as keys, and keys that are pairwise different give
    item keys that are pairwise different. *)
Theorem rendered_tags_are_keys (Routes : RoutesTable) (w : World) :
  let rendered := groupKeys (lit "Tags") (commandList (render Routes w)) in
  (forall t, In t rendered <-> In t (Object_keys (tagCount w)))
  /\ List.length rendered = List.length (tagCount w)
  /\ (NoDup (Object_keys (tagCount w)) -> NoDup rendered).
Proof.
  cbv zeta. rewrite rendered_tags. unfold tagItems.
  pose proof (sort_perm (Object_keys (tagCount w))) as Hp.
  split; [|split].
  - intros t. split; intros H.
    + eapply Permutation_in; [apply Permutation_sym; exact Hp | exact H].
    + eapply Permutation_in; [exact Hp | exact H].
  - rewrite <- (Permutation_length Hp). unfold Object_keys.
    apply length_map.
  - intros Hnd. eapply Permutation_NoDup; [exact Hp | exact Hnd].
Qed.

Lemma rendered_tags_are_keys_witness :
  NoDup (groupKeys (lit "Tags")
           (commandList
              (render exampleRoutes (mount [] [(lit "b", 1); (lit "a", 2)])))).
Proof.
  apply (proj2 (proj2 (rendered_tags_are_keys exampleRoutes
                         (mount [] [(lit "b", 1); (lit "a", 2)])))).
  cbn. repeat constructor; cbn; intuition discriminate.
Defined.

(** X12. A tag mapping whose keys already come in lexicographic order is
    rendered in exactly that order. *)
Theorem ordered_keys_unchanged (Routes : RoutesTable) (w : World) :
  StronglySorted lex_le (Object_keys (tagCount w)) ->
  groupKeys (lit "Tags") (commandList (render Routes w)) = Object_keys (tagCount w).
Proof.
  intros Hs. rewrite rendered_tags. unfold tagItems.
  apply ordered_perm_unique; [apply sort_ordered | exact Hs|].
  apply Permutation_sym, sort_perm.
Qed.

Lemma ordered_keys_unchanged_witness :
  groupKeys (lit "Tags")
    (commandList (render exampleRoutes (mount [] [(lit "a", 2); (lit "b", 1)])))
  = [lit "a"; lit "b"]
  /\ groupKeys (lit "Tags")
       (commandList
          (render exampleRoutes
             (mount [] [([55357%N; 56832%N], 2); ([65374%N], 1)])))
     = [[55357%N; 56832%N]; [65374%N]].
Proof.
  split.
  - apply (@ordered_keys_unchanged exampleRoutes
             (mount [] [(lit "a", 2); (lit "b", 1)])).
    cbn. repeat constructor.
  - apply (@ordered_keys_unchanged exampleRoutes
             (mount [] [([55357%N; 56832%N], 2); ([65374%N], 1)])).
    cbn. repeat constructor.
Defined.

(** X13. Every item rendered in the "Tags" group stands for a key of the
    tag mapping: its text is "#" followed by that key, and selecting it, in
    whatever state the palette is by then, adds the "tagSearch" filter for
    exactly that key and closes the palette. *)
Theorem tag_item_select (Routes : RoutesTable) (w w' : World)
    (item : CommandItem) :
  In item (groupItems (lit "Tags") (commandList (render Routes w))) ->
  In (item_key item) (Object_keys (tagCount w))
  /\ item_text item = lit "#" ++ item_key item
  /\ step w' (Select (onSelect item))
     = (closed w',
        [AddFilter {| factor := lit "tagSearch"; value := item_key item |}]).
Proof.
  rewrite rendered_tag_items. intros Hin.
  apply in_map_iff in Hin. destruct Hin as [t [<- Ht]].
  cbn [tagItem item_key item_text onSelect]. split; [|split].
  - eapply Permutation_in; [|exact Ht].
    apply Permutation_sym, sort_perm.
  - reflexivity.
  - apply step_closing; reflexivity.
Qed.

Lemma tag_item_select_witness :
  step (opened (mount [] [(lit "b", 1); (lit "a", 2)])) (Select (SelectTag (lit "a")))
  = (closed (opened (mount [] [(lit "b", 1); (lit "a", 2)])),
     [AddFilter {| factor := lit "tagSearch"; value := lit "a" |}]).
Proof.
  apply (@tag_item_select exampleRoutes (mount [] [(lit "b", 1); (lit "a", 2)])
           (opened (mount [] [(lit "b", 1); (lit "a", 2)])) (tagItem (lit "a"))).
  left. reflexivity.
Defined.
